(** * Optional<T>: inline storage for at most one value

    A shallow embedding of [optional.h] and the verification of its
    storage and lifecycle discipline.

    An [Optional<T>] object has three members: the raw buffer [data_], the
    pointer [value_ptr_] (null, or the address of the [T] that placement new
    built in [data_]) and the flag [is_initialized_].  The element type [T] is
    a template parameter: its constructors, assignment operators and
    destructor are taken as an interface, and each of them may observe and
    change a state of its own (counters, resources), and may throw, except
    for the destructor.

    Containers live in a store indexed by address, so that an operation that
    takes another container ([Optional(const Optional&)], [operator=]) can be
    applied to two different objects or to the same one. *)

From stdpp Require Import base option list gmap.
From Stdlib Require Import ZArith.

Set Default Proof Using "Type".

(** ** Addresses, pointers and references *)

Definition addr := nat.

(** The values [value_ptr_] takes in the source: [nullptr], or the result of
    [new (data_) T(...)], which is the address of the object's own buffer. *)
Inductive ptr := nullptr | to_data.

(** The three forms of the accessors: [T&], [const T&] and [T&&]. *)
Inductive ref_kind := Lvalue | ConstLvalue | Rvalue.

(** A reference to the element stored in the container at [referent]. *)
Record ref := mkRef { kind : ref_kind; referent : addr }.

Definition const_cast (k : ref_kind) (r : ref) : ref := mkRef k (referent r).

(** Where the right-hand side of an element assignment comes from: an object
    of the caller, or the element of a container. *)
Inductive operand := External | Element (a : addr).

Inductive ctor_kind := CopyCtor | MoveCtor | ArgsCtor.
Inductive assign_kind := CopyAssign | MoveAssign.

(** ** The element type

    [T] is the state of a live element, [E] what its operations throw, [W]
    the state they share outside the containers, and [Args] the argument
    packs accepted by [Emplace].  A constructor returns [inl e] when it
    throws [e]; an assignment returns [Some e] when it throws [e], together
    with the state it leaves the assigned object in.  Moving also returns the
    state the source is left in.  When both sides of an assignment are the
    same object, the operator sees one object, hence the two [self]
    operations. *)
Class ElementType (T E W Args : Type) := {
  T_copy_ctor : T → W → (E + T) * W;
  T_move_ctor : T → W → (E + T) * T * W;
  T_args_ctor : Args → W → (E + T) * W;
  T_copy_assign : T → T → W → option E * T * W;
  T_move_assign : T → T → W → option E * T * T * W;
  T_self_copy_assign : T → W → option E * T * W;
  T_self_move_assign : T → W → option E * T * W;
  T_dtor : T → W → W
}.

(** An instrumented element type, for running the definitions: integers
    whose constructors draw on a budget, the shared state.  A constructor
    throws the value it could not build when the budget is exhausted,
    assigning a negative value throws it, and a moved-from integer is
    zero. *)
Definition budgeted (x : Z) (w : nat) : (Z + Z) * nat :=
  match w with
  | O => (inl x, O)
  | S w' => (inr x, w')
  end.

Definition checked_assign (u x : Z) (w : nat) : option Z * Z * nat :=
  if (x <? 0)%Z then (Some x, u, w) else (None, x, w).

Global Instance Fragile : ElementType Z Z nat (Z * Z) := {|
  T_copy_ctor x w := budgeted x w;
  T_move_ctor x w :=
    let '(r, w') := budgeted x w in
    (r, match r with inl _ => x | inr _ => 0%Z end, w');
  T_args_ctor xy w := budgeted (xy.1 + xy.2)%Z w;
  T_copy_assign u x w := checked_assign u x w;
  T_move_assign u x w :=
    let '(r, u', w') := checked_assign u x w in
    (r, u', match r with Some _ => x | None => 0%Z end, w');
  T_self_copy_assign u w := (None, u, w);
  T_self_move_assign u w := (None, u, w);
  T_dtor _ w := w
|}.

Section optional.
Context {T E W Args : Type} `{!ElementType T E W Args}.

(** ** The container and the memory *)

(** [data_] is [alignas(T) char data_[sizeof(T)]]: what matters of these
    bytes is whether a live [T] occupies them, and in which state. *)
Record Optional := mkOptional {
  data_ : option T;
  value_ptr_ : ptr;
  is_initialized_ : bool
}.

(** What the members hold after [Optional() = default]: the default member
    initializers [value_ptr_ = nullptr] and [is_initialized_ = false], and a
    buffer without object. *)
Definition empty_Optional : Optional := mkOptional None nullptr false.

(** What the element operations did, in order. *)
Inductive event :=
  | Constructed (k : ctor_kind) (a : addr)
  | ConstructThrew (k : ctor_kind) (a : addr) (e : E)
  | Assigned (k : assign_kind) (a : addr) (src : operand) (r : option E)
  | Destroyed (a : addr).

Record mem := mkMem {
  objs : gmap addr Optional;
  world : W;
  log : list event
}.

Inductive exn :=
  | BadOptionalAccess
  | ElemExn (e : E).

(** ** Computations: state, exceptions and undefined behaviour *)

Inductive outcome (A : Type) :=
  | Normal (a : A) (m : mem)
  | Throws (x : exn) (m : mem)
  | Undefined.
Global Arguments Normal {A} a m.
Global Arguments Throws {A} x m.
Global Arguments Undefined {A}.

Definition M (A : Type) : Type := mem → outcome A.

Global Instance M_ret : MRet M := λ A a m, Normal a m.
Global Instance M_bind : MBind M := λ A B k c m,
  match c m with
  | Normal a m' => k a m'
  | Throws x m' => Throws x m'
  | Undefined => Undefined
  end.

Definition throw {A} (x : exn) : M A := λ m, Throws x m.
Definition undefined {A} : M A := λ _, Undefined.

(** ** Memory accesses *)

Definition get (this : addr) : M Optional := λ m,
  match objs m !! this with
  | Some o => Normal o m
  | None => Undefined
  end.

Definition put (this : addr) (o : Optional) : M unit := λ m,
  Normal () (mkMem (<[this := o]> (objs m)) (world m) (log m)).

Definition emit (ev : event) : M unit := λ m,
  Normal () (mkMem (objs m) (world m) (log m ++ [ev])).

(** Runs an operation of the element type on the state it shares. *)
Definition with_world {A} (f : W → A * W) : M A := λ m,
  let '(a, w) := f (world m) in Normal a (mkMem (objs m) w (log m)).

(** The storage of a new container, with its default member initializers. *)
Definition alloc (this : addr) : M unit := λ m,
  match objs m !! this with
  | Some _ => Undefined
  | None => put this empty_Optional m
  end.

Definition get_is_initialized (this : addr) : M bool :=
  o ← get this; mret (is_initialized_ o).

Definition set_is_initialized (this : addr) (b : bool) : M unit :=
  o ← get this; put this (mkOptional (data_ o) (value_ptr_ o) b).

Definition set_value_ptr (this : addr) (p : ptr) : M unit :=
  o ← get this; put this (mkOptional (data_ o) p (is_initialized_ o)).

Definition set_data (this : addr) (d : option T) : M unit :=
  o ← get this; put this (mkOptional d (value_ptr_ o) (is_initialized_ o)).

(** [*value_ptr_], read: undefined through a null pointer or when no object
    lives in the buffer. *)
Definition star_value_ptr (this : addr) : M T :=
  o ← get this;
  match value_ptr_ o, data_ o with
  | to_data, Some v => mret v
  | _, _ => undefined
  end.

(** The new state of [*value_ptr_] after an operation of [T] changed it. *)
Definition update_star_value_ptr (this : addr) (v : T) : M unit :=
  _ ← star_value_ptr this; set_data this (Some v).

(** [*value_ptr_] as a reference of the given form. *)
Definition ref_star_value_ptr (k : ref_kind) (this : addr) : M ref :=
  _ ← star_value_ptr this; mret (mkRef k this).

(** What a reference designates in a memory. *)
Definition read_ref (r : ref) (m : mem) : option T :=
  o ← objs m !! referent r; data_ o.

(** Reading through a reference. *)
Definition read (r : ref) : M (option T) := λ m, Normal (read_ref r m) m.

(** The parts of an outcome. *)
Definition returned {A} (r : outcome A) : option A :=
  match r with
  | Normal a _ => Some a
  | _ => None
  end.

Definition thrown {A} (r : outcome A) : option exn :=
  match r with
  | Throws x _ => Some x
  | _ => None
  end.

Definition final {A} (r : outcome A) : option mem :=
  match r with
  | Normal _ m | Throws _ m => Some m
  | Undefined => None
  end.

(** The element operations that ran between two memories. *)
Definition events_of (m m' : mem) : list event :=
  drop (length (log m)) (log m').

(** The event records that an operation of [T] threw [e]. *)
Definition threw (e : E) (ev : event) : Prop :=
  match ev with
  | ConstructThrew _ _ e' => e' = e
  | Assigned _ _ _ (Some e') => e' = e
  | _ => False
  end.

(** [new (data_) T(...)]: a constructor of [T] runs in the buffer of [this].
    The expression yields the address of the new object, or throws what the
    constructor threw, in which case the buffer holds no object. *)
Definition constructed_at (this : addr) (k : ctor_kind) (r : E + T) : M ptr :=
  match r with
  | inl e => emit (ConstructThrew k this e);; throw (ElemExn e)
  | inr v => set_data this (Some v);; emit (Constructed k this);; mret to_data
  end.

Definition placement_new (this : addr) (k : ctor_kind)
    (ctor : W → (E + T) * W) : M ptr :=
  r ← with_world ctor;
  constructed_at this k r.

(** [new (data_) T(std::move(x))]: the move constructor also leaves its
    argument [x] in a moved-from state; [x] is an object of the caller or the
    element of the container [other]. *)
Definition placement_new_move (this : addr) (src : operand) (x : T) : M ptr :=
  '(r, x') ← with_world (T_move_ctor x);
  match src with
  | Element other => update_star_value_ptr other x'
  | External => mret ()
  end;;
  constructed_at this MoveCtor r.

(** [value_ptr_->~T()]. *)
Definition destroy_star_value_ptr (this : addr) : M unit :=
  v ← star_value_ptr this;
  with_world (λ w, ((), T_dtor v w));;
  set_data this None;;
  emit (Destroyed this).

(** The end of an assignment of [T]: the exception, if it threw. *)
Definition rethrow (r : option E) : M unit :=
  match r with
  | Some e => throw (ElemExn e)
  | None => mret ()
  end.

(** [*value_ptr_ = x]: the assignment operator [assign] of [T] runs on the
    element, which it leaves in a new state whether it throws or not; [src]
    records where [x] comes from. *)
Definition assign_star_value_ptr (k : assign_kind) (this : addr)
    (src : operand) (assign : T → W → option E * T * W) : M unit :=
  u ← star_value_ptr this;
  '(r, u') ← with_world (assign u);
  update_star_value_ptr this u';;
  emit (Assigned k this src r);;
  rethrow r.

(** ** The member functions of [Optional<T>] *)

(** [Optional() = default]. *)
Definition Optional_default (this : addr) : M unit :=
  alloc this.

(** [Optional(const T& value)]. *)
Definition Optional_from_const_ref (this : addr) (value : T) : M unit :=
  alloc this;;
  p ← placement_new this CopyCtor (T_copy_ctor value);
  set_value_ptr this p;;
  set_is_initialized this true.

(** [Optional(T&& value)]; the moved-from [value] belongs to the caller. *)
Definition Optional_from_rvalue (this : addr) (value : T) : M unit :=
  alloc this;;
  p ← placement_new_move this External value;
  set_value_ptr this p;;
  set_is_initialized this true.

(** [bool HasValue() const]. *)
Definition HasValue (this : addr) : M bool :=
  get_is_initialized this.

(** [void Reset()]. *)
Definition Reset (this : addr) : M unit :=
  init ← get_is_initialized this;
  if negb init then mret ()
  else
    destroy_star_value_ptr this;;
    set_value_ptr this nullptr;;
    set_is_initialized this false.

(** [*value_ptr_ = *other.value_ptr_]. *)
Definition copy_assign_from (this other : addr) : M unit :=
  if decide (this = other) then
    assign_star_value_ptr CopyAssign this (Element other) T_self_copy_assign
  else
    v ← star_value_ptr other;
    assign_star_value_ptr CopyAssign this (Element other)
      (λ u, T_copy_assign u v).

(** [*value_ptr_ = std::move(x)], where [x] is [*other.value_ptr_]. *)
Definition move_assign_from (this other : addr) : M unit :=
  if decide (this = other) then
    assign_star_value_ptr MoveAssign this (Element other) T_self_move_assign
  else
    u ← star_value_ptr this;
    v ← star_value_ptr other;
    '(r, u', v') ← with_world (T_move_assign u v);
    update_star_value_ptr this u';;
    update_star_value_ptr other v';;
    emit (Assigned MoveAssign this (Element other) r);;
    rethrow r.

(** [void CopyFrom(const Optional& other)]. *)
Definition CopyFrom (this other : addr) : M unit :=
  init ← get_is_initialized this;
  if negb init then
    v ← star_value_ptr other;
    p ← placement_new this CopyCtor (T_copy_ctor v);
    set_value_ptr this p;;
    set_is_initialized this true
  else
    copy_assign_from this other.

(** [void MoveFrom(Optional& other)]. *)
Definition MoveFrom (this other : addr) : M unit :=
  init ← get_is_initialized this;
  if negb init then
    v ← star_value_ptr other;
    p ← placement_new_move this (Element other) v;
    set_value_ptr this p;;
    set_is_initialized this true
  else
    move_assign_from this other.

(** [Optional(const Optional& other)]. *)
Definition Optional_copy (this other : addr) : M unit :=
  alloc this;;
  other_init ← get_is_initialized other;
  if negb other_init then mret ()
  else CopyFrom this other.

(** [Optional(Optional&& other)]. *)
Definition Optional_move (this other : addr) : M unit :=
  alloc this;;
  other_init ← get_is_initialized other;
  if negb other_init then mret ()
  else MoveFrom this other.

(** [Optional& operator=(const T& value)]; the result is [*this]. *)
Definition assign_const_ref (this : addr) (value : T) : M addr :=
  init ← get_is_initialized this;
  (if negb init then
     p ← placement_new this CopyCtor (T_copy_ctor value);
     set_value_ptr this p;;
     set_is_initialized this true
   else
     assign_star_value_ptr CopyAssign this External
       (λ u, T_copy_assign u value));;
  mret this.

(** [Optional& operator=(T&& value)]. *)
Definition assign_rvalue (this : addr) (value : T) : M addr :=
  init ← get_is_initialized this;
  (if negb init then
     p ← placement_new_move this External value;
     set_value_ptr this p;;
     set_is_initialized this true
   else
     assign_star_value_ptr MoveAssign this External
       (λ u w, let '(r, u', _, w') := T_move_assign u value w in (r, u', w')));;
  mret this.

(** [Optional& operator=(const Optional& rhs)]. *)
Definition assign_copy (this rhs : addr) : M addr :=
  rhs_init ← get_is_initialized rhs;
  (if negb rhs_init then
     init ← get_is_initialized this;
     if (init : bool) then Reset this else mret ()
   else CopyFrom this rhs);;
  mret this.

(** [Optional& operator=(Optional&& rhs)]. *)
Definition assign_move (this rhs : addr) : M addr :=
  rhs_init ← get_is_initialized rhs;
  (if negb rhs_init then
     init ← get_is_initialized this;
     if (init : bool) then Reset this else mret ()
   else MoveFrom this rhs);;
  mret this.

(** [void Emplace(Values&&... values)]. *)
Definition Emplace (this : addr) (values : Args) : M unit :=
  Reset this;;
  p ← placement_new this ArgsCtor (T_args_ctor values);
  set_value_ptr this p;;
  set_is_initialized this true.

(** [~Optional()]: the body.  The members are trivially destructible. *)
Definition Optional_dtor (this : addr) : M unit :=
  Reset this.

(** [T&& operator*() &&], [T& operator*() &], [const T& operator*() const &]:
    no check. *)
Definition deref_rvalue (this : addr) : M ref :=
  ref_star_value_ptr Rvalue this.

Definition deref_lvalue (this : addr) : M ref :=
  ref_star_value_ptr Lvalue this.

Definition deref_const (this : addr) : M ref :=
  ref_star_value_ptr ConstLvalue this.

(** [T* operator->()] and [const T* operator->() const]. *)
Definition arrow (this : addr) : M ptr :=
  o ← get this; mret (value_ptr_ o).

Definition arrow_const (this : addr) : M ptr :=
  o ← get this; mret (value_ptr_ o).

(** [const T& Value() const &]. *)
Definition Value_const (this : addr) : M ref :=
  init ← get_is_initialized this;
  if negb init then throw BadOptionalAccess
  else ref_star_value_ptr ConstLvalue this.

(** [T& Value() &]: the const overload through two [const_cast]s. *)
Definition Value_lvalue (this : addr) : M ref :=
  r ← Value_const this;
  mret (const_cast Lvalue r).

(** [T&& Value() &&]. *)
Definition Value_rvalue (this : addr) : M ref :=
  r ← Value_const this;
  mret (const_cast Rvalue r).

(** ** Sequences of operations *)

(** The operations that change a container.  Value arguments are objects of
    the caller, outside the containers. *)
Inductive op :=
  | OpDefault (this : addr)
  | OpFromConstRef (this : addr) (value : T)
  | OpFromRvalue (this : addr) (value : T)
  | OpCopy (this other : addr)
  | OpMove (this other : addr)
  | OpAssignConstRef (this : addr) (value : T)
  | OpAssignRvalue (this : addr) (value : T)
  | OpAssignCopy (this rhs : addr)
  | OpAssignMove (this rhs : addr)
  | OpEmplace (this : addr) (values : Args)
  | OpReset (this : addr)
  | OpDtor (this : addr).

Definition exec_op (o : op) : M unit :=
  match o with
  | OpDefault this => Optional_default this
  | OpFromConstRef this value => Optional_from_const_ref this value
  | OpFromRvalue this value => Optional_from_rvalue this value
  | OpCopy this other => Optional_copy this other
  | OpMove this other => Optional_move this other
  | OpAssignConstRef this value => _ ← assign_const_ref this value; mret ()
  | OpAssignRvalue this value => _ ← assign_rvalue this value; mret ()
  | OpAssignCopy this rhs => _ ← assign_copy this rhs; mret ()
  | OpAssignMove this rhs => _ ← assign_move this rhs; mret ()
  | OpEmplace this values => Emplace this values
  | OpReset this => Reset this
  | OpDtor this => Optional_dtor this
  end.

(** The container an operation is applied to. *)
Definition target (o : op) : addr :=
  match o with
  | OpDefault this | OpFromConstRef this _ | OpFromRvalue this _
  | OpCopy this _ | OpMove this _ | OpAssignConstRef this _
  | OpAssignRvalue this _ | OpAssignCopy this _ | OpAssignMove this _
  | OpEmplace this _ | OpReset this | OpDtor this => this
  end.

(** The container an operation takes as its argument, if any. *)
Definition source (o : op) : option addr :=
  match o with
  | OpCopy _ other | OpMove _ other => Some other
  | OpAssignCopy _ rhs | OpAssignMove _ rhs => Some rhs
  | _ => None
  end.

Definition is_constructor (o : op) : bool :=
  match o with
  | OpDefault _ | OpFromConstRef _ _ | OpFromRvalue _ _
  | OpCopy _ _ | OpMove _ _ => true
  | _ => false
  end.

(** What happens to the storage of the target once the operation is over: a
    destroyed container is gone, and so is one whose constructor threw. *)
Definition release (o : op) (completed : bool) (m : mem) : mem :=
  match o with
  | OpDtor this => mkMem (delete this (objs m)) (world m) (log m)
  | _ =>
      if is_constructor o && negb completed
      then mkMem (delete (target o) (objs m)) (world m) (log m)
      else m
  end.

(** A caller that performs the operations in turn, catching what they throw.
    [None] when one of them has undefined behaviour. *)
Fixpoint run (ops : list op) (m : mem) : option mem :=
  match ops with
  | [] => Some m
  | o :: ops' =>
      match exec_op o m with
      | Normal _ m' => run ops' (release o true m')
      | Throws _ m' => run ops' (release o false m')
      | Undefined => None
      end
  end.

Definition initial (w : W) : mem := mkMem ∅ w [].

(** An operation can be applied when its target exists, or does not exist
    yet for a constructor, and the container it takes exists. *)
Definition has_object (m : mem) (a : addr) : bool :=
  match objs m !! a with
  | Some _ => true
  | None => false
  end.

Definition applicable (o : op) (m : mem) : bool :=
  (if is_constructor o then negb (has_object m (target o))
   else has_object m (target o))
  && match source o with
     | Some a => has_object m a
     | None => true
     end.

(** Memories with one and with two containers, and nothing logged yet. *)
Definition one_container (this : addr) (c : Optional) (w : W) : mem :=
  mkMem {[this := c]} w [].

Definition two_containers (this : addr) (c : Optional)
    (other : addr) (c' : Optional) (w : W) : mem :=
  mkMem (<[this := c]> {[other := c']}) w [].

(** ** Consistent containers *)

Definition occupied_with (v : T) : Optional := mkOptional (Some v) to_data true.

(** The flag is set, and the pointer is not null, exactly when an object
    lives in the buffer. *)
Definition consistent (o : Optional) : bool :=
  match data_ o, value_ptr_ o, is_initialized_ o with
  | Some _, to_data, true => true
  | None, nullptr, false => true
  | _, _, _ => false
  end.

Definition mem_inv (m : mem) : Prop :=
  map_Forall (λ _ o, consistent o = true) (objs m).

(** ** The state machine of the specification *)

Inductive state := Empty | Occupied.

Inductive stimulus :=
  | ConstructFromValue
  | FromOccupiedSource
  | FromEmptySource
  | InPlaceAssignment
  | DoEmplace
  | DoReset
  | Destruction.

(** The transitions as the specification lists them: Empty to Occupied by
    construction from a value, from an occupied source, or Emplace; Occupied
    to Occupied by in-place assignment or Emplace; Occupied to Empty by
    Reset, destruction, or assignment from an empty source; Empty to Empty by
    Reset or assignment from an empty source.  Destruction is specified as
    equivalent to Reset, which gives its transition from Empty. *)
Definition transition (s : state) (x : stimulus) : option state :=
  match s, x with
  | Empty, (ConstructFromValue | FromOccupiedSource | DoEmplace) => Some Occupied
  | Occupied, (InPlaceAssignment | DoEmplace) => Some Occupied
  | Occupied, (DoReset | Destruction | FromEmptySource) => Some Empty
  | Empty, (DoReset | Destruction | FromEmptySource) => Some Empty
  | _, _ => None
  end.

(** The stimulus an operation is for a target in state [s], given the state
    of its source. *)
Definition stimulus_of (o : op) (s : state) (src : option state) : option stimulus :=
  match o, src with
  | (OpFromConstRef _ _ | OpFromRvalue _ _), _ => Some ConstructFromValue
  | (OpAssignConstRef _ _ | OpAssignRvalue _ _), _ =>
      Some match s with Empty => ConstructFromValue | Occupied => InPlaceAssignment end
  | (OpCopy _ _ | OpMove _ _ | OpAssignCopy _ _ | OpAssignMove _ _), Some Empty =>
      Some FromEmptySource
  | (OpCopy _ _ | OpMove _ _ | OpAssignCopy _ _ | OpAssignMove _ _), Some Occupied =>
      Some match s with Empty => FromOccupiedSource | Occupied => InPlaceAssignment end
  | OpEmplace _ _, _ => Some DoEmplace
  | OpReset _, _ => Some DoReset
  | OpDtor _, _ => Some Destruction
  | _, _ => None
  end.

(** The states the machine predicts after an operation.  A container under
    construction starts Empty. *)
Definition predict (o : op) (s : gmap addr state) : option (gmap addr state) :=
  let s0 := if is_constructor o then <[target o := Empty]> s else s in
  cur ← s0 !! target o;
  next ← match o with
         | OpDefault _ => Some cur
         | _ => stimulus_of o cur (source o ≫= (s0 !!.)) ≫= transition cur
         end;
  Some (<[target o := next]> s0).

Definition state_of (o : Optional) : state :=
  if is_initialized_ o then Occupied else Empty.

(** What [HasValue()] reports for each container of a memory. *)
Definition observed (m : mem) : gmap addr state := state_of <$> objs m.

(** ** Further notions used in the verification *)

(** A computation that leaves the memory as it found it, whatever its
    outcome. *)
Definition read_only {A} (c : M A) (m : mem) : Prop :=
  ∀ m', final (c m) = Some m' → m' = m.



(** Counting the events of a log. *)
Fixpoint count (p : event → bool) (l : list event) : nat :=
  match l with
  | [] => 0
  | ev :: l' => (if p ev then 1 else 0) + count p l'
  end.

Definition is_construction (a : addr) (ev : event) : bool :=
  match ev with
  | Constructed _ a' => bool_decide (a' = a)
  | _ => false
  end.

Definition is_destruction (a : addr) (ev : event) : bool :=
  match ev with
  | Destroyed a' => bool_decide (a' = a)
  | _ => false
  end.

(** The number of elements alive in the buffer of the container at [a]. *)
Definition live_elements (m : mem) (a : addr) : nat :=
  match objs m !! a with
  | Some c => match data_ c with Some _ => 1 | None => 0 end
  | None => 0
  end.

(** Every element constructed in the buffer at [a] has been destroyed,
    except the one that is alive there. *)
Definition balanced (m : mem) : Prop :=
  ∀ a, count (is_construction a) (log m) =
       count (is_destruction a) (log m) + live_elements m a.

(** * Verification *)

Implicit Types (m : mem) (c : Optional) (this other rhs : addr) (v u : T).

(** ** Running the definitions *)

(** [exec] evaluates a computation on a memory whose relevant lookups and
    element operations are given by equations in the context. *)
Ltac unfold_members :=
  unfold Optional_default, Optional_from_const_ref, Optional_from_rvalue,
    Optional_copy, Optional_move, assign_const_ref, assign_rvalue,
    assign_copy, assign_move, Emplace, Optional_dtor, HasValue,
    Value_lvalue, Value_rvalue, Value_const, deref_rvalue, deref_lvalue,
    deref_const, arrow, arrow_const, CopyFrom, MoveFrom, Reset,
    copy_assign_from, move_assign_from.

Ltac unfold_accesses :=
  unfold assign_star_value_ptr, rethrow, destroy_star_value_ptr,
    placement_new_move, placement_new, constructed_at, ref_star_value_ptr,
    update_star_value_ptr, star_value_ptr, set_data, set_value_ptr,
    set_is_initialized, get_is_initialized, alloc, with_world, emit, put,
    get, throw, undefined, mbind, M_bind, mret, M_ret.

Ltac use_eqs :=
  repeat match goal with
         | H : ?l = _ |- context [?l] => rewrite H
         end.

Ltac exec :=
  unfold_members; unfold_accesses;
  repeat first
    [ progress cbn
    | progress use_eqs
    | rewrite lookup_insert_eq
    | rewrite lookup_insert_ne by congruence
    | rewrite insert_insert_eq
    | rewrite decide_True by congruence
    | rewrite decide_False by congruence ].

(** ** Consistency *)

Lemma consistent_cases c :
  consistent c = true → c = empty_Optional ∨ ∃ v, c = occupied_with v.
Proof.
  destruct c as [[v|] [] []]; cbn; intros ?; try discriminate; eauto.
Qed.

Lemma consistent_flag c :
  consistent c = true → (is_initialized_ c = true ↔ is_Some (data_ c)).
Proof.
  intros [->|[v ->]]%consistent_cases; cbn; split; intros Hx;
    try discriminate; try done; eauto.
Qed.

Lemma mem_inv_lookup m this c :
  mem_inv m → objs m !! this = Some c →
  c = empty_Optional ∨ ∃ v, c = occupied_with v.
Proof. intros Hinv Hc. apply consistent_cases. exact (Hinv _ _ Hc). Qed.

Lemma mem_inv_delete m this w l :
  mem_inv m → mem_inv (mkMem (delete this (objs m)) w l).
Proof. intros Hinv. by apply map_Forall_delete. Qed.

Lemma mem_inv_initial w : mem_inv (initial w).
Proof. apply map_Forall_empty. Qed.

Lemma mem_inv_one_container this c w :
  consistent c = true → mem_inv (one_container this c w).
Proof. intros Hc. by apply map_Forall_singleton. Qed.

Lemma mem_inv_release o b m : mem_inv m → mem_inv (release o b m).
Proof.
  intros Hinv. unfold release.
  destruct o, b; cbn; auto using mem_inv_delete.
Qed.

(** ** Every operation keeps the containers consistent and follows the machine *)

Lemma observed_lookup m this c :
  objs m !! this = Some c → observed m !! this = Some (state_of c).
Proof. intros Hc. unfold observed. by rewrite lookup_fmap, Hc. Qed.

Lemma observed_lookup_None m this :
  objs m !! this = None → observed m !! this = None.
Proof. intros Hc. unfold observed. by rewrite lookup_fmap, Hc. Qed.

Lemma events_of_app m (objs0 : gmap addr Optional) w l :
  events_of m (mkMem objs0 w (log m ++ l)) = l.
Proof. unfold events_of. cbn. by rewrite drop_app_length. Qed.

(** The container at [a] in a consistent memory: absent, empty or occupied. *)
Ltac container_cases m a :=
  let c := fresh "c" in
  let Hc := fresh "Hc" in
  let Ho := fresh "Ho" in
  destruct (objs m !! a) as [c|] eqn:Hc;
  [ match goal with
    | Hinv : mem_inv m |- _ =>
        destruct (mem_inv_lookup m a c Hinv Hc) as [->|[? ->]]
    end;
    pose proof (observed_lookup m a _ Hc) as Ho
  | pose proof (observed_lookup_None m a Hc) as Ho ];
  cbn in Ho.

(** The outcomes of the operations of [T] that the goal runs. *)
Ltac elem_cases :=
  repeat match goal with
    | |- context [T_copy_ctor ?x ?w] =>
        destruct (T_copy_ctor x w) as [[?|?] ?] eqn:?
    | |- context [T_move_ctor ?x ?w] =>
        destruct (T_move_ctor x w) as [[[?|?] ?] ?] eqn:?
    | |- context [T_args_ctor ?x ?w] =>
        destruct (T_args_ctor x w) as [[?|?] ?] eqn:?
    | |- context [T_copy_assign ?x ?y ?w] =>
        destruct (T_copy_assign x y w) as [[[?|] ?] ?] eqn:?
    | |- context [T_move_assign ?x ?y ?w] =>
        destruct (T_move_assign x y w) as [[[[?|] ?] ?] ?] eqn:?
    | |- context [T_self_copy_assign ?x ?w] =>
        destruct (T_self_copy_assign x w) as [[[?|] ?] ?] eqn:?
    | |- context [T_self_move_assign ?x ?w] =>
        destruct (T_self_move_assign x w) as [[[?|] ?] ?] eqn:?
    end.

Ltac solve_inv :=
  unfold mem_inv in *; cbn;
  repeat (apply map_Forall_insert_2; [reflexivity|]);
  assumption.

Ltac solve_predict :=
  unfold predict, observed in *; cbn;
  rewrite ?fmap_insert; cbn;
  repeat first
    [ progress use_eqs
    | progress cbn
    | rewrite lookup_insert_eq
    | rewrite lookup_insert_ne by congruence
    | rewrite insert_insert_eq ];
  repeat (rewrite (insert_id (state_of <$> _)) by assumption);
  first
    [ reflexivity
    | f_equal; apply map_eq; intros i;
      repeat (rewrite lookup_insert; case_decide; subst);
      congruence ].

Lemma exec_op_sound o m :
  mem_inv m →
  match exec_op o m with
  | Normal _ m' => mem_inv m' ∧ predict o (observed m) = Some (observed m')
  | Throws _ m' => mem_inv m'
  | Undefined => True
  end.
Proof.
  intros Hinv. unfold exec_op.
  destruct o as [this|this v|this v|this other|this other|this v|this v
                |this rhs|this rhs|this a|this|this].
  all: try (destruct (decide (this = other)) as [->|Hne]).
  all: try (destruct (decide (this = rhs)) as [->|Hne]).
  all: try container_cases m this.
  all: try container_cases m other.
  all: try container_cases m rhs.
  all: exec; try done.
  all: elem_cases; exec; try done.
  all: try (split; [solve_inv|solve_predict]).
  all: try solve_inv.
Qed.

(** An applicable operation on consistent containers returns, unless an
    operation of [T] threw: then it throws what that operation threw. *)
Lemma exec_op_total o m :
  mem_inv m → applicable o m = true →
  (∃ m', exec_op o m = Normal () m') ∨
  (∃ e m' ev, exec_op o m = Throws (ElemExn e) m' ∧
              last (events_of m m') = Some ev ∧ threw e ev).
Proof.
  intros Hinv. unfold exec_op, applicable, has_object.
  destruct o as [this|this v|this v|this other|this other|this v|this v
                |this rhs|this rhs|this a|this|this]; cbn.
  all: try (destruct (decide (this = other)) as [->|Hne]).
  all: try (destruct (decide (this = rhs)) as [->|Hne]).
  all: try container_cases m this.
  all: try container_cases m other.
  all: try container_cases m rhs.
  all: cbn; try discriminate; intros _.
  all: exec; elem_cases; exec.
  all: first
    [ left; eexists; reflexivity
    | right; do 3 eexists; split; [reflexivity|];
      rewrite <- ?app_assoc; cbn; rewrite events_of_app; cbn;
      split; reflexivity ].
Qed.

Lemma run_inv ops m m' : mem_inv m → run ops m = Some m' → mem_inv m'.
Proof.
  revert m. induction ops as [|o ops IH]; intros m Hinv Hrun; cbn in Hrun.
  - by simplify_eq.
  - pose proof (exec_op_sound o m Hinv) as Hs.
    destruct (exec_op o m) as [[] m1|x m1|]; [| |done].
    + destruct Hs as [Hs _]. eauto using mem_inv_release.
    + eauto using mem_inv_release.
Qed.

Lemma HasValue_observed m this b :
  HasValue this m = Normal b m ↔
  observed m !! this = Some (if b then Occupied else Empty).
Proof.
  unfold observed. rewrite lookup_fmap.
  destruct (objs m !! this) as [c|] eqn:Hc; exec; [|by split].
  unfold state_of. destruct (is_initialized_ c), b; split; intros; by simplify_eq.
Qed.

(** C1. Along every sequence of constructions, assignments, Emplace, Reset
    and destructions, started from a memory without containers and for every
    element type, whose operations may throw at any point: each container has
    its flag set exactly when a live element occupies its buffer (and then
    [value_ptr_] points to it); every applicable operation returns, unless an
    operation of [T] threw, which it then rethrows; and after every operation
    that returns, [HasValue()] reports for each container the state that the
    two-state machine predicts from the states reported before. *)
Theorem HasValue_follows_state_machine (ops : list op) (w : W) m :
  run ops (initial w) = Some m →
  (∀ this c, objs m !! this = Some c →
     (is_initialized_ c = true ↔ is_Some (data_ c)) ∧
     (value_ptr_ c = to_data ↔ is_Some (data_ c))) ∧
  (∀ o, applicable o m = true →
     (∃ m', exec_op o m = Normal () m') ∨
     (∃ e m' ev, exec_op o m = Throws (ElemExn e) m' ∧
                 last (events_of m m') = Some ev ∧ threw e ev)) ∧
  (∀ o m', exec_op o m = Normal () m' →
     predict o (observed m) = Some (observed m') ∧
     ∀ this b, HasValue this m' = Normal b m' ↔
               observed m' !! this = Some (if b then Occupied else Empty)).
Proof.
  intros Hrun.
  assert (mem_inv m) as Hinv by eauto using run_inv, mem_inv_initial.
  repeat apply conj.
  - intros this c Hc. split; [by apply consistent_flag, (Hinv this)|].
    destruct (mem_inv_lookup m this c Hinv Hc) as [->|[v ->]]; cbn; split;
      intros Hx; try discriminate; eauto; by destruct Hx.
  - intros o. by apply exec_op_total.
  - intros o m' Hex. pose proof (exec_op_sound o m Hinv) as Hs.
    rewrite Hex in Hs. split; [apply Hs|]. intros. apply HasValue_observed.
Qed.

(** ** The accessors *)

(** C2. On a container whose flag is clear, each of the three forms of
    [Value()] throws [BadOptionalAccess], which no operation of [T] throws,
    and leaves the memory as it was, so that calling it again throws again.  On a container whose flag is set,
    each form is its unchecked counterpart [operator*]; for a consistent
    container that is a reference to the stored element. *)
Theorem Value_checked this m c :
  objs m !! this = Some c →
  (is_initialized_ c = false →
     Value_const this m = Throws BadOptionalAccess m ∧
     Value_lvalue this m = Throws BadOptionalAccess m ∧
     Value_rvalue this m = Throws BadOptionalAccess m ∧
     (Value_const this;; Value_const this) m = Throws BadOptionalAccess m ∧
     ∀ e, BadOptionalAccess ≠ ElemExn e) ∧
  (is_initialized_ c = true →
     Value_const this m = deref_const this m ∧
     Value_lvalue this m = deref_lvalue this m ∧
     Value_rvalue this m = deref_rvalue this m ∧
     ∀ v, c = occupied_with v →
       Value_const this m = Normal (mkRef ConstLvalue this) m ∧
       Value_lvalue this m = Normal (mkRef Lvalue this) m ∧
       Value_rvalue this m = Normal (mkRef Rvalue this) m ∧
       ∀ k, read_ref (mkRef k this) m = Some v).
Proof.
  intros Hc. split; intros Hflag.
  - repeat apply conj; [exec; reflexivity..|discriminate].
  - repeat apply conj;
      [destruct c as [[v|] [] ?]; cbn in Hflag; subst; exec; reflexivity..|].
    intros v ->. repeat apply conj; [exec; reflexivity..|].
    intros k. unfold read_ref. cbn. by rewrite Hc.
Qed.

(** ** Reset and destruction *)

Lemma Reset_empty this m c :
  objs m !! this = Some c → is_initialized_ c = false →
  Reset this m = Normal () m.
Proof. intros Hc Hflag. exec. reflexivity. Qed.

Lemma Reset_occupied this m v :
  objs m !! this = Some (occupied_with v) →
  Reset this m =
    Normal () (mkMem (<[this := empty_Optional]> (objs m))
                     (T_dtor v (world m)) (log m ++ [Destroyed this])).
Proof. intros Hc. exec. reflexivity. Qed.

(** C7. [Reset()] on an empty container returns and changes nothing; on an
    occupied one it runs the destructor of the element once, in place, and
    leaves the container empty; a second [Reset()] then changes nothing; and
    the destructor of the container does what [Reset()] does. *)
Theorem Reset_and_destruction this m :
  (∀ c, objs m !! this = Some c → is_initialized_ c = false →
     Reset this m = Normal () m ∧
     (Reset this;; Reset this) m = Reset this m) ∧
  (∀ v, objs m !! this = Some (occupied_with v) →
     let m' := mkMem (<[this := empty_Optional]> (objs m))
                     (T_dtor v (world m)) (log m ++ [Destroyed this]) in
     Reset this m = Normal () m' ∧
     HasValue this m' = Normal false m' ∧
     (Reset this;; Reset this) m = Reset this m) ∧
  Optional_dtor this m = Reset this m.
Proof.
  repeat apply conj; [| |reflexivity].
  - intros c Hc Hflag. split; [by eapply Reset_empty|]. exec. reflexivity.
  - intros v Hc m'. repeat apply conj.
    + by apply Reset_occupied.
    + subst m'. exec. reflexivity.
    + subst m'. exec. reflexivity.
Qed.

(** ** Assignment of a value *)

(** C4. Assigning a value to an empty container runs a constructor of [T]
    (copy or move) in the buffer and sets the flag.  Assigning to an occupied
    container runs the assignment operator of [T] on the existing element:
    that is the only element operation, nothing is destroyed and nothing is
    constructed.  Either way the container is occupied afterwards, by what
    the constructor built or by what the assignment left. *)
Theorem assign_value this value m :
  (∀ c v' w', objs m !! this = Some c → is_initialized_ c = false →
     T_copy_ctor value (world m) = (inr v', w') →
     assign_const_ref this value m =
       Normal this (mkMem (<[this := occupied_with v']> (objs m)) w'
                          (log m ++ [Constructed CopyCtor this]))) ∧
  (∀ u u' w', objs m !! this = Some (occupied_with u) →
     T_copy_assign u value (world m) = (None, u', w') →
     assign_const_ref this value m =
       Normal this (mkMem (<[this := occupied_with u']> (objs m)) w'
                          (log m ++ [Assigned CopyAssign this External None]))) ∧
  (∀ c v' x w', objs m !! this = Some c → is_initialized_ c = false →
     T_move_ctor value (world m) = (inr v', x, w') →
     assign_rvalue this value m =
       Normal this (mkMem (<[this := occupied_with v']> (objs m)) w'
                          (log m ++ [Constructed MoveCtor this]))) ∧
  (∀ u u' x w', objs m !! this = Some (occupied_with u) →
     T_move_assign u value (world m) = (None, u', x, w') →
     assign_rvalue this value m =
       Normal this (mkMem (<[this := occupied_with u']> (objs m)) w'
                          (log m ++ [Assigned MoveAssign this External None]))).
Proof.
  repeat apply conj; intros; exec; reflexivity.
Qed.

(** ** Construction *)

(** C5. A container built from a value has a value, and [Value()] refers to
    the element that the constructor of [T] built from that value.  A copy of
    an empty container is empty, and no operation of [T] runs.  A copy of an
    occupied container holds what the copy constructor of [T] built from the
    element of the source, in a buffer of its own, with the flag set; the
    source is left as it was. *)
Theorem construction_from_value_and_copy this m :
  objs m !! this = None →
  (∀ value v' w', T_copy_ctor value (world m) = (inr v', w') →
     let m' := mkMem (<[this := occupied_with v']> (objs m)) w'
                     (log m ++ [Constructed CopyCtor this]) in
     Optional_from_const_ref this value m = Normal () m' ∧
     HasValue this m' = Normal true m' ∧
     (r ← Value_const this; read r) m' = Normal (Some v') m') ∧
  (∀ value v' x w', T_move_ctor value (world m) = (inr v', x, w') →
     let m' := mkMem (<[this := occupied_with v']> (objs m)) w'
                     (log m ++ [Constructed MoveCtor this]) in
     Optional_from_rvalue this value m = Normal () m' ∧
     HasValue this m' = Normal true m' ∧
     (r ← Value_const this; read r) m' = Normal (Some v') m') ∧
  (∀ other c, objs m !! other = Some c → is_initialized_ c = false →
     let m' := mkMem (<[this := empty_Optional]> (objs m)) (world m) (log m) in
     Optional_copy this other m = Normal () m' ∧
     HasValue this m' = Normal false m') ∧
  (∀ other u u' w', objs m !! other = Some (occupied_with u) →
     T_copy_ctor u (world m) = (inr u', w') →
     let m' := mkMem (<[this := occupied_with u']> (objs m)) w'
                     (log m ++ [Constructed CopyCtor this]) in
     Optional_copy this other m = Normal () m' ∧
     HasValue this m' = Normal true m' ∧
     objs m' !! other = Some (occupied_with u)).
Proof.
  intros Hfresh.
  assert (∀ other c, objs m !! other = Some c → this ≠ other) as Hne
    by (intros ?? ? ->; congruence).
  repeat apply conj.
  - intros. subst m'. repeat apply conj; unfold read, read_ref; exec; reflexivity.
  - intros. subst m'. repeat apply conj; unfold read, read_ref; exec; reflexivity.
  - intros other c Hc Hflag m'. specialize (Hne _ _ Hc). subst m'.
    repeat apply conj; exec; reflexivity.
  - intros other u u' w' Hc Hctor m'. specialize (Hne _ _ Hc). subst m'.
    repeat apply conj; exec; reflexivity.
Qed.

(** ** Assignment of a container *)

(** C6. Assigning a container whose flag is clear, by copy or by move, to
    an occupied container destroys the element of the target once and leaves
    the target empty; to an empty target (which may be the source itself) it
    changes nothing.  The target is empty afterwards in both cases. *)
Theorem assign_from_empty this rhs m c_rhs :
  objs m !! rhs = Some c_rhs →
  is_initialized_ c_rhs = false →
  (∀ u, objs m !! this = Some (occupied_with u) →
     let m' := mkMem (<[this := empty_Optional]> (objs m))
                     (T_dtor u (world m)) (log m ++ [Destroyed this]) in
     assign_copy this rhs m = Normal this m' ∧
     assign_move this rhs m = Normal this m' ∧
     HasValue this m' = Normal false m') ∧
  (∀ c, objs m !! this = Some c → is_initialized_ c = false →
     assign_copy this rhs m = Normal this m ∧
     assign_move this rhs m = Normal this m ∧
     HasValue this m = Normal false m).
Proof.
  intros Hrhs Hflag. split.
  - intros u Hc m'. subst m'. repeat apply conj; exec; reflexivity.
  - intros c Hc Hflag'. repeat apply conj; exec; reflexivity.
Qed.

(** C10. Assigning a container to itself by copy leaves [HasValue()] as it
    was.  An empty container is left untouched, no operation of [T] runs.  An
    occupied one stays occupied by the same element, on which the assignment
    operator of [T] runs once, with that element on both sides; nothing is
    destroyed and nothing is constructed.  The assignment returns, or throws,
    as that operator does. *)
Theorem self_copy_assign this m :
  (∀ c, objs m !! this = Some c → is_initialized_ c = false →
     assign_copy this this m = Normal this m ∧
     HasValue this m = Normal false m) ∧
  (∀ u r u' w', objs m !! this = Some (occupied_with u) →
     T_self_copy_assign u (world m) = (r, u', w') →
     let m' := mkMem (<[this := occupied_with u']> (objs m)) w'
                 (log m ++ [Assigned CopyAssign this (Element this) r]) in
     assign_copy this this m =
       match r with
       | None => Normal this m'
       | Some e => Throws (ElemExn e) m'
       end ∧
     HasValue this m = Normal true m ∧
     HasValue this m' = Normal true m').
Proof.
  split.
  - intros c Hc Hflag. split; exec; reflexivity.
  - intros u r u' w' Hc Hself m'. subst m'.
    repeat apply conj; exec; [by destruct r|reflexivity..].
Qed.

(** ** Emplace *)

(** C8. [Emplace] first does what [Reset()] does: it destroys the element of
    an occupied container, once, and does nothing to an empty one.  Then the
    constructor of [T] for the given arguments runs in the buffer: it is the
    only constructor that runs, no copy or move of a [T] takes place.  The
    flag is set in the end. *)
Theorem Emplace_replaces this values m :
  (∀ c v' w', objs m !! this = Some c → is_initialized_ c = false →
     T_args_ctor values (world m) = (inr v', w') →
     let m' := mkMem (<[this := occupied_with v']> (objs m)) w'
                     (log m ++ [Constructed ArgsCtor this]) in
     Reset this m = Normal () m ∧
     Emplace this values m = Normal () m' ∧
     HasValue this m' = Normal true m') ∧
  (∀ u v' w', objs m !! this = Some (occupied_with u) →
     T_args_ctor values (T_dtor u (world m)) = (inr v', w') →
     let m1 := mkMem (<[this := empty_Optional]> (objs m))
                     (T_dtor u (world m)) (log m ++ [Destroyed this]) in
     let m' := mkMem (<[this := occupied_with v']> (objs m)) w'
                     (log m ++ [Destroyed this; Constructed ArgsCtor this]) in
     Reset this m = Normal () m1 ∧
     Emplace this values m = Normal () m' ∧
     HasValue this m' = Normal true m').
Proof.
  split.
  - intros c v' w' Hc Hflag Hctor m'. subst m'.
    repeat apply conj; exec; reflexivity.
  - intros u v' w' Hc Hctor m1 m'. subst m1 m'.
    repeat apply conj; exec; rewrite <- ?app_assoc; reflexivity.
Qed.

(** ** Moving out of a container *)

(** C9. Moving from an occupied container, by construction or by
    assignment, never clears the flag of the source: whatever the outcome,
    the source is occupied afterwards and [HasValue()] says so.  When the
    move of [T] succeeds, the source holds the moved-from element that this
    move left behind. *)
Theorem move_leaves_source_occupied this other m u :
  objs m !! other = Some (occupied_with u) →
  (∀ m', final (Optional_move this other m) = Some m' ∨
         final (assign_move this other m) = Some m' →
     (∃ u', objs m' !! other = Some (occupied_with u')) ∧
     HasValue other m' = Normal true m') ∧
  (∀ v' u' w', objs m !! this = None →
     T_move_ctor u (world m) = (inr v', u', w') →
     Optional_move this other m =
       Normal () (mkMem (<[this := occupied_with v']>
                           (<[other := occupied_with u']> (objs m))) w'
                        (log m ++ [Constructed MoveCtor this]))) ∧
  (∀ c v' u' w', objs m !! this = Some c → is_initialized_ c = false →
     T_move_ctor u (world m) = (inr v', u', w') →
     assign_move this other m =
       Normal this (mkMem (<[this := occupied_with v']>
                             (<[other := occupied_with u']> (objs m))) w'
                          (log m ++ [Constructed MoveCtor this]))) ∧
  (∀ t t' u' w', this ≠ other → objs m !! this = Some (occupied_with t) →
     T_move_assign t u (world m) = (None, t', u', w') →
     assign_move this other m =
       Normal this (mkMem (<[other := occupied_with u']>
                             (<[this := occupied_with t']> (objs m))) w'
                          (log m ++ [Assigned MoveAssign this (Element other) None]))).
Proof.
  intros Hother. repeat apply conj.
  - intros m' Hfinal.
    assert (∃ u', objs m' !! other = Some (occupied_with u')) as [u' Hu'].
    { revert Hfinal.
      destruct (decide (this = other)) as [->|Hne];
        [|destruct (objs m !! this) as [[[t|] [] []]|] eqn:Hthis];
        exec; elem_cases; exec;
        intros [Hfinal|Hfinal]; simplify_eq; cbn;
        rewrite ?lookup_insert_eq, 1?lookup_insert_ne by congruence;
        rewrite ?lookup_insert_eq; eauto. }
    split; [eauto|]. exec. reflexivity.
  - intros v' u' w' Hthis Hmove.
    assert (this ≠ other) by congruence. exec.
    rewrite (insert_insert_ne _ other this) by congruence.
    rewrite insert_insert_eq. reflexivity.
  - intros c v' u' w' Hthis Hflag Hmove.
    assert (this ≠ other) by (intros ->; simplify_eq).
    exec. reflexivity.
  - intros t t' u' w' Hne Hthis Hmove. exec. reflexivity.
Qed.

(** ** Failure of a constructor of the element type *)

(** C3. Each operation that constructs a new element, when the constructor
    of [T] that it runs throws [e], throws that same [e], and leaves its
    container without a value: flag clear and, the containers being
    consistent, no element in the buffer.  Construction of a container from
    a value or from an occupied container ends with the default members.
    Assignment to an empty container and [Emplace] on one leave every
    container as it was, except that a failed move leaves the source in the
    state the move constructor of [T] put it in.  [Emplace] on an occupied
    container has destroyed its element and leaves it empty.  And whatever an
    operation throws, all containers are consistent afterwards. *)
Theorem constructor_failure_is_safe m :
  mem_inv m →
  (∀ this value e w', objs m !! this = None →
     T_copy_ctor value (world m) = (inl e, w') →
     let m' := mkMem (<[this := empty_Optional]> (objs m)) w'
                     (log m ++ [ConstructThrew CopyCtor this e]) in
     Optional_from_const_ref this value m = Throws (ElemExn e) m' ∧
     HasValue this m' = Normal false m') ∧
  (∀ this value e x w', objs m !! this = None →
     T_move_ctor value (world m) = (inl e, x, w') →
     let m' := mkMem (<[this := empty_Optional]> (objs m)) w'
                     (log m ++ [ConstructThrew MoveCtor this e]) in
     Optional_from_rvalue this value m = Throws (ElemExn e) m' ∧
     HasValue this m' = Normal false m') ∧
  (∀ this other u e w', objs m !! this = None →
     objs m !! other = Some (occupied_with u) →
     T_copy_ctor u (world m) = (inl e, w') →
     let m' := mkMem (<[this := empty_Optional]> (objs m)) w'
                     (log m ++ [ConstructThrew CopyCtor this e]) in
     Optional_copy this other m = Throws (ElemExn e) m' ∧
     HasValue this m' = Normal false m') ∧
  (∀ this other u e u' w', objs m !! this = None →
     objs m !! other = Some (occupied_with u) →
     T_move_ctor u (world m) = (inl e, u', w') →
     let m' := mkMem (<[other := occupied_with u']>
                        (<[this := empty_Optional]> (objs m))) w'
                     (log m ++ [ConstructThrew MoveCtor this e]) in
     Optional_move this other m = Throws (ElemExn e) m' ∧
     HasValue this m' = Normal false m') ∧
  (∀ this c value e w', objs m !! this = Some c →
     is_initialized_ c = false →
     T_copy_ctor value (world m) = (inl e, w') →
     let m' := mkMem (objs m) w' (log m ++ [ConstructThrew CopyCtor this e]) in
     assign_const_ref this value m = Throws (ElemExn e) m' ∧
     HasValue this m' = Normal false m') ∧
  (∀ this c value e x w', objs m !! this = Some c →
     is_initialized_ c = false →
     T_move_ctor value (world m) = (inl e, x, w') →
     let m' := mkMem (objs m) w' (log m ++ [ConstructThrew MoveCtor this e]) in
     assign_rvalue this value m = Throws (ElemExn e) m' ∧
     HasValue this m' = Normal false m') ∧
  (∀ this rhs c u e w', objs m !! this = Some c →
     is_initialized_ c = false →
     objs m !! rhs = Some (occupied_with u) →
     T_copy_ctor u (world m) = (inl e, w') →
     let m' := mkMem (objs m) w' (log m ++ [ConstructThrew CopyCtor this e]) in
     assign_copy this rhs m = Throws (ElemExn e) m' ∧
     HasValue this m' = Normal false m') ∧
  (∀ this rhs c u e u' w', objs m !! this = Some c →
     is_initialized_ c = false →
     objs m !! rhs = Some (occupied_with u) →
     T_move_ctor u (world m) = (inl e, u', w') →
     let m' := mkMem (<[rhs := occupied_with u']> (objs m)) w'
                     (log m ++ [ConstructThrew MoveCtor this e]) in
     assign_move this rhs m = Throws (ElemExn e) m' ∧
     HasValue this m' = Normal false m') ∧
  (∀ this c values e w', objs m !! this = Some c →
     is_initialized_ c = false →
     T_args_ctor values (world m) = (inl e, w') →
     let m' := mkMem (objs m) w' (log m ++ [ConstructThrew ArgsCtor this e]) in
     Emplace this values m = Throws (ElemExn e) m' ∧
     HasValue this m' = Normal false m') ∧
  (∀ this u values e w', objs m !! this = Some (occupied_with u) →
     T_args_ctor values (T_dtor u (world m)) = (inl e, w') →
     let m' := mkMem (<[this := empty_Optional]> (objs m)) w'
                 (log m ++ [Destroyed this; ConstructThrew ArgsCtor this e]) in
     Emplace this values m = Throws (ElemExn e) m' ∧
     HasValue this m' = Normal false m') ∧
  (∀ (o : op) x m', exec_op o m = Throws x m' → mem_inv m').
Proof.
  intros Hinv.
  assert (∀ this other c c', objs m !! this = Some c →
            is_initialized_ c = false →
            objs m !! other = Some c' → is_initialized_ c' = true →
            this ≠ other) as Hdiff
    by (intros ???? H1 ? H2 ? ->; rewrite H1 in H2; simplify_eq; congruence).
  assert (∀ this other c', objs m !! this = None →
            objs m !! other = Some c' → this ≠ other) as Hfresh
    by (intros ??? H1 H2 ->; congruence).
  repeat apply conj.
  - intros this value e w' Hthis Hctor m'. subst m'. split; exec; reflexivity.
  - intros this value e x w' Hthis Hctor m'. subst m'. split; exec; reflexivity.
  - intros this other u e w' Hthis Hother Hctor m'. subst m'.
    specialize (Hfresh _ _ _ Hthis Hother). split; exec; reflexivity.
  - intros this other u e u' w' Hthis Hother Hctor m'. subst m'.
    specialize (Hfresh _ _ _ Hthis Hother). split; exec; reflexivity.
  - intros this c value e w' Hthis Hflag Hctor m'. subst m'.
    split; exec; reflexivity.
  - intros this c value e x w' Hthis Hflag Hctor m'. subst m'.
    split; exec; reflexivity.
  - intros this rhs c u e w' Hthis Hflag Hrhs Hctor m'. subst m'.
    specialize (Hdiff _ _ _ _ Hthis Hflag Hrhs eq_refl). split; exec; reflexivity.
  - intros this rhs c u e u' w' Hthis Hflag Hrhs Hctor m'. subst m'.
    specialize (Hdiff _ _ _ _ Hthis Hflag Hrhs eq_refl). split; exec; reflexivity.
  - intros this c values e w' Hthis Hflag Hctor m'. subst m'.
    split; exec; reflexivity.
  - intros this u values e w' Hthis Hctor m'. subst m'.
    split; exec; rewrite <- ?app_assoc; reflexivity.
  - intros o x m' Hex. pose proof (exec_op_sound o m Hinv) as Hs.
    by rewrite Hex in Hs.
Qed.

(** * Further properties of the member functions *)

(** ** The accessors *)

(** X1. [HasValue()], the three forms of [Value()], the three forms of
    [operator*] and the two forms of [operator->] leave every container, the
    state of the element type and the log as they were, whether they return
    or throw. *)
Theorem accessors_do_not_modify this m :
  read_only (HasValue this) m ∧
  read_only (Value_const this) m ∧
  read_only (Value_lvalue this) m ∧
  read_only (Value_rvalue this) m ∧
  read_only (deref_const this) m ∧
  read_only (deref_lvalue this) m ∧
  read_only (deref_rvalue this) m ∧
  read_only (arrow this) m ∧
  read_only (arrow_const this) m.
Proof.
  unfold read_only.
  repeat apply conj; intros m';
    destruct (objs m !! this) as [[[v|] [] []]|] eqn:Hc; exec;
    intros [= <-]; reflexivity.
Qed.

(** X2. The unchecked accessors make no check.  On a consistent container
    [operator->] returns [value_ptr_] as it is, which is null exactly when
    the container is empty; and on an empty container [operator*]
    dereferences that null pointer, which is undefined behaviour: it throws
    nothing. *)
Theorem unchecked_access this m c :
  objs m !! this = Some c →
  consistent c = true →
  arrow this m = Normal (value_ptr_ c) m ∧
  arrow_const this m = Normal (value_ptr_ c) m ∧
  (value_ptr_ c = nullptr ↔ HasValue this m = Normal false m) ∧
  (is_initialized_ c = false →
     deref_lvalue this m = Undefined ∧
     deref_const this m = Undefined ∧
     deref_rvalue this m = Undefined).
Proof.
  intros Hc [->|[v ->]]%consistent_cases.
  - split; [exec; reflexivity|]. split; [exec; reflexivity|]. split.
    + split; intros _; [exec|]; reflexivity.
    + intros _. repeat apply conj; exec; reflexivity.
  - split; [exec; reflexivity|]. split; [exec; reflexivity|]. split.
    + split; [discriminate|]. exec. intros [=].
    + discriminate.
Qed.
(** ** Failure of an assignment of the element type *)

(** X3. When the assignment operator of [T] that an assignment to an
    occupied container runs throws [e], the assignment of the container
    throws that same [e]; that operator is the only operation of [T] that
    ran, so nothing was destroyed or constructed; and the container still
    has a value, the element in the state the failed operator left it in.
    This holds for the assignment of a value, by copy and by move, and for
    the assignment of another, occupied container, by copy and by move. *)
Theorem assignment_failure_keeps_element this m u :
  objs m !! this = Some (occupied_with u) →
  (∀ value e u' w',
     T_copy_assign u value (world m) = (Some e, u', w') →
     let m' := mkMem (<[this := occupied_with u']> (objs m)) w'
                 (log m ++ [Assigned CopyAssign this External (Some e)]) in
     assign_const_ref this value m = Throws (ElemExn e) m' ∧
     HasValue this m' = Normal true m') ∧
  (∀ value e u' x w',
     T_move_assign u value (world m) = (Some e, u', x, w') →
     let m' := mkMem (<[this := occupied_with u']> (objs m)) w'
                 (log m ++ [Assigned MoveAssign this External (Some e)]) in
     assign_rvalue this value m = Throws (ElemExn e) m' ∧
     HasValue this m' = Normal true m') ∧
  (∀ rhs v e u' w', this ≠ rhs →
     objs m !! rhs = Some (occupied_with v) →
     T_copy_assign u v (world m) = (Some e, u', w') →
     let m' := mkMem (<[this := occupied_with u']> (objs m)) w'
                 (log m ++ [Assigned CopyAssign this (Element rhs) (Some e)]) in
     assign_copy this rhs m = Throws (ElemExn e) m' ∧
     HasValue this m' = Normal true m' ∧
     objs m' !! rhs = Some (occupied_with v)) ∧
  (∀ rhs v e u' v' w', this ≠ rhs →
     objs m !! rhs = Some (occupied_with v) →
     T_move_assign u v (world m) = (Some e, u', v', w') →
     let m' := mkMem (<[rhs := occupied_with v']>
                        (<[this := occupied_with u']> (objs m))) w'
                 (log m ++ [Assigned MoveAssign this (Element rhs) (Some e)]) in
     assign_move this rhs m = Throws (ElemExn e) m' ∧
     HasValue this m' = Normal true m' ∧
     HasValue rhs m' = Normal true m').
Proof.
  intros Hthis. repeat apply conj.
  - intros value e u' w' Hassign m'. subst m'. split; exec; reflexivity.
  - intros value e u' x w' Hassign m'. subst m'. split; exec; reflexivity.
  - intros rhs v e u' w' Hne Hrhs Hassign m'. subst m'.
    repeat apply conj; exec; reflexivity.
  - intros rhs v e u' v' w' Hne Hrhs Hassign m'. subst m'.
    repeat apply conj; exec; reflexivity.
Qed.

(** ** What an operation leaves alone *)


(** ** Constructions and destructions *)

Lemma count_app p (l l' : list event) :
  count p (l ++ l') = count p l + count p l'.
Proof. induction l as [|ev l IH]; cbn; [done|]. rewrite IH. lia. Qed.

(** Comparing the addresses in the context with [a]. *)
Ltac addr_cases a :=
  repeat match goal with
         | x : addr |- _ =>
             assert_fails (constr_eq x a);
             lazymatch goal with
             | _ : x ≠ a |- _ => fail
             | _ => destruct (decide (x = a)) as [->|?]
             end
         end.

Ltac solve_balanced :=
  let a := fresh "a" in
  let Ha := fresh "Ha" in
  intros a;
  match goal with Hbal : balanced _ |- _ => pose proof (Hbal a) as Ha end;
  unfold live_elements in *; cbn;
  rewrite <- ?app_assoc, ?count_app; cbn;
  addr_cases a;
  repeat match goal with
         | H : ?l = _, Ha' : context [?l] |- _ => rewrite H in Ha'
         end;
  repeat first
    [ rewrite lookup_delete_eq
    | rewrite lookup_insert_eq
    | rewrite lookup_delete_ne by congruence
    | rewrite lookup_insert_ne by congruence
    | rewrite bool_decide_eq_true_2 by congruence
    | rewrite bool_decide_eq_false_2 by congruence ];
  use_eqs; cbn in *; lia.

Lemma exec_op_balanced o m :
  mem_inv m → balanced m →
  match exec_op o m with
  | Normal _ m' => balanced (release o true m')
  | Throws _ m' => balanced (release o false m')
  | Undefined => True
  end.
Proof.
  intros Hinv Hbal. unfold exec_op.
  destruct o as [this|this v|this v|this other|this other|this v|this v
                |this rhs|this rhs|this values|this|this].
  all: try (destruct (decide (this = other)) as [->|Hne]).
  all: try (destruct (decide (this = rhs)) as [->|Hne]).
  all: try container_cases m this.
  all: try container_cases m other.
  all: try container_cases m rhs.
  all: exec; try done.
  all: elem_cases; exec; try done.
  all: unfold release; cbn.
  all: solve_balanced.
Qed.

Lemma run_balanced ops m m' :
  mem_inv m → balanced m → run ops m = Some m' → balanced m'.
Proof.
  revert m. induction ops as [|o ops IH]; intros m Hinv Hbal Hrun; cbn in Hrun.
  - by simplify_eq.
  - pose proof (exec_op_sound o m Hinv) as Hs.
    pose proof (exec_op_balanced o m Hinv Hbal) as Hb.
    destruct (exec_op o m) as [[] m1|x m1|]; [| |done].
    + destruct Hs as [Hs _]. eauto using mem_inv_release.
    + eauto using mem_inv_release.
Qed.

(** X5. Along every sequence of operations started without containers, and
    for each address: the elements constructed in the buffer of the container
    at that address are as many as those destroyed there, plus one exactly
    when an element is alive in it.  No element is destroyed twice or
    overwritten by a construction, and a container that is destroyed, or
    whose constructor threw, leaves no element behind. *)
Theorem constructions_match_destructions (ops : list op) (w : W) m a :
  run ops (initial w) = Some m →
  count (is_construction a) (log m) =
    count (is_destruction a) (log m) + live_elements m a ∧
  live_elements m a ≤ 1 ∧
  (live_elements m a = 1 ↔ HasValue a m = Normal true m).
Proof.
  intros Hrun.
  assert (mem_inv m) as Hinv by eauto using run_inv, mem_inv_initial.
  assert (balanced m) as Hbal.
  { eapply run_balanced; [apply mem_inv_initial| |exact Hrun]. by intros ?. }
  split; [apply Hbal|].
  unfold live_elements.
  destruct (objs m !! a) as [c|] eqn:Hc.
  - destruct (mem_inv_lookup m a c Hinv Hc) as [->|[v ->]]; cbn;
      (split; [lia|]); exec; split; intros Hx; try done; lia.
  - split; [lia|]. exec. split; intros Hx; try done; lia.
Qed.
(** ** Assignment from an occupied container *)


(** X7. Assigning a container to itself by move: an empty container is left
    untouched; an occupied one stays occupied by the same element, on which
    the move assignment of [T] runs once with that element on both sides,
    and nothing is destroyed or constructed. *)
Theorem self_move_assign this m :
  (∀ c, objs m !! this = Some c → is_initialized_ c = false →
     assign_move this this m = Normal this m) ∧
  (∀ u r u' w', objs m !! this = Some (occupied_with u) →
     T_self_move_assign u (world m) = (r, u', w') →
     let m' := mkMem (<[this := occupied_with u']> (objs m)) w'
                 (log m ++ [Assigned MoveAssign this (Element this) r]) in
     assign_move this this m =
       match r with
       | None => Normal this m'
       | Some e => Throws (ElemExn e) m'
       end ∧
     HasValue this m' = Normal true m').
Proof.
  split.
  - intros c Hc Hflag. exec. reflexivity.
  - intros u r u' w' Hc Hself m'. subst m'.
    split; exec; [by destruct r|reflexivity].
Qed.

(** ** Storing and reading back *)

(** X8. What is stored is what [Value()] refers to: after [Emplace] on a
    consistent container, the element built from the arguments; after the
    assignment of a value, the element built from it when the container was
    empty, and the element as the assignment of [T] left it when the
    container was occupied.  After [Reset()], [Value()] throws
    [BadOptionalAccess]. *)
Theorem stored_value_is_read_back this m c :
  objs m !! this = Some c →
  consistent c = true →
  (∀ values v' w',
     T_args_ctor values
       (match data_ c with Some u => T_dtor u (world m) | None => world m end)
     = (inr v', w') →
     returned ((Emplace this values;; r ← Value_const this; read r) m)
     = Some (Some v')) ∧
  (∀ value v' w', is_initialized_ c = false →
     T_copy_ctor value (world m) = (inr v', w') →
     returned ((assign_const_ref this value;; r ← Value_const this; read r) m)
     = Some (Some v')) ∧
  (∀ value u u' w', data_ c = Some u →
     T_copy_assign u value (world m) = (None, u', w') →
     returned ((assign_const_ref this value;; r ← Value_const this; read r) m)
     = Some (Some u')) ∧
  thrown ((Reset this;; Value_const this) m) = Some BadOptionalAccess.
Proof.
  intros Hc [->|[u0 ->]]%consistent_cases; repeat apply conj.
  all: try (intros; simplify_eq/=; unfold read, read_ref; exec;
            rewrite ?lookup_insert_eq; reflexivity).
  all: exec; reflexivity.
Qed.

(** ** Failure inside Emplace *)

(** X9. [Emplace] destroys the element of an occupied container before it
    constructs the new one: when that constructor throws, the exception
    leaves [Emplace] with the old element destroyed and the container
    empty. *)
Theorem Emplace_failure_loses_old_element this values m u e w' :
  objs m !! this = Some (occupied_with u) →
  T_args_ctor values (T_dtor u (world m)) = (inl e, w') →
  let m' := mkMem (<[this := empty_Optional]> (objs m)) w'
              (log m ++ [Destroyed this; ConstructThrew ArgsCtor this e]) in
  Emplace this values m = Throws (ElemExn e) m' ∧
  HasValue this m' = Normal false m' ∧
  thrown (Value_const this m') = Some BadOptionalAccess.
Proof.
  intros Hc Hctor m'. subst m'.
  repeat apply conj; exec; rewrite <- ?app_assoc; reflexivity.
Qed.

End optional.

(** * The theorems at concrete inputs

    Containers of instrumented integers, at the addresses 0 and 1. *)

Lemma HasValue_follows_state_machine_witness :
  let ops : list (@op Z (Z * Z)) := [OpFromConstRef 0 5%Z; OpFromConstRef 1 6%Z] in
  let reset : @op Z (Z * Z) := OpReset 0 in
  let m : @mem Z Z nat :=
    mkMem {[0 := occupied_with 5%Z]} 0
          [Constructed CopyCtor 0; ConstructThrew CopyCtor 1 6%Z] in
  let m' : @mem Z Z nat :=
    mkMem {[0 := empty_Optional]} 0
          [Constructed CopyCtor 0; ConstructThrew CopyCtor 1 6%Z; Destroyed 0] in
  run ops (initial 1) = Some m ∧
  exec_op reset m = Normal () m' ∧
  predict reset (observed m) = Some (observed m').
Proof.
  intros ops reset m m'.
  assert (run ops (initial 1) = Some m) as Hrun by (vm_compute; reflexivity).
  assert (exec_op reset m = Normal () m') as Hex by (vm_compute; reflexivity).
  repeat apply conj; [exact Hrun|exact Hex|].
  exact (proj1 (proj2 (proj2 (HasValue_follows_state_machine ops 1 m Hrun))
                  _ _ Hex)).
Defined.

Lemma Value_checked_witness :
  let m0 : @mem Z Z nat := one_container 0 empty_Optional 0 in
  let m1 : @mem Z Z nat := one_container 0 (occupied_with 5%Z) 0 in
  Value_rvalue 0 m0 = Throws BadOptionalAccess m0 ∧
  Value_rvalue 0 m1 = deref_rvalue 0 m1 ∧
  read_ref (mkRef Rvalue 0) m1 = Some 5%Z.
Proof.
  intros m0 m1.
  pose proof (Value_checked 0 m0 empty_Optional eq_refl) as [H0 _].
  pose proof (Value_checked 0 m1 (occupied_with 5%Z) eq_refl) as [_ H1].
  repeat apply conj.
  - exact (proj1 (proj2 (proj2 (H0 eq_refl)))).
  - exact (proj1 (proj2 (proj2 (H1 eq_refl)))).
  - exact (proj2 (proj2 (proj2 (proj2 (proj2 (proj2 (H1 eq_refl)))
             5%Z eq_refl))) Rvalue).
Defined.

Lemma constructor_failure_is_safe_witness :
  let m : @mem Z Z nat := one_container 0 (occupied_with 5%Z) 0 in
  let m0 : @mem Z Z nat := one_container 0 empty_Optional 0 in
  Emplace 0 (3, 4)%Z m =
    Throws (ElemExn 7%Z)
      (mkMem {[0 := empty_Optional]} 0
             [Destroyed 0; ConstructThrew ArgsCtor 0 7%Z]) ∧
  assign_rvalue 0 8%Z m0 =
    Throws (ElemExn 8%Z)
      (mkMem {[0 := empty_Optional]} 0 [ConstructThrew MoveCtor 0 8%Z]) ∧
  Optional_move 1 0 m =
    Throws (ElemExn 5%Z)
      (mkMem (<[0 := occupied_with 5%Z]> {[1 := empty_Optional]}) 0
             [ConstructThrew MoveCtor 1 5%Z]).
Proof.
  intros m m0.
  assert (mem_inv m) as Hinv by (by apply mem_inv_one_container).
  assert (mem_inv m0) as Hinv0 by (by apply mem_inv_one_container).
  destruct (constructor_failure_is_safe m Hinv)
    as (_ & _ & _ & Hmove & _ & _ & _ & _ & _ & Hemplace & _).
  destruct (constructor_failure_is_safe m0 Hinv0)
    as (_ & _ & _ & _ & _ & Hassign & _).
  repeat apply conj.
  - exact (proj1 (Hemplace 0 5%Z (3, 4)%Z 7%Z 0 eq_refl eq_refl)).
  - exact (proj1 (Hassign 0 empty_Optional 8%Z 8%Z 8%Z 0 eq_refl eq_refl eq_refl)).
  - exact (proj1 (Hmove 1 0 5%Z 5%Z 5%Z 0 eq_refl eq_refl eq_refl)).
Defined.

Lemma assign_value_witness :
  let m0 : @mem Z Z nat := one_container 0 empty_Optional 3 in
  let m1 : @mem Z Z nat := one_container 0 (occupied_with 5%Z) 3 in
  assign_const_ref 0 7%Z m0 =
    Normal 0 (mkMem {[0 := occupied_with 7%Z]} 2 [Constructed CopyCtor 0]) ∧
  assign_const_ref 0 7%Z m1 =
    Normal 0 (mkMem {[0 := occupied_with 7%Z]} 3
                    [Assigned CopyAssign 0 External None]) ∧
  assign_rvalue 0 7%Z m0 =
    Normal 0 (mkMem {[0 := occupied_with 7%Z]} 2 [Constructed MoveCtor 0]) ∧
  assign_rvalue 0 7%Z m1 =
    Normal 0 (mkMem {[0 := occupied_with 7%Z]} 3
                    [Assigned MoveAssign 0 External None]).
Proof.
  intros m0 m1.
  destruct (assign_value 0 7%Z m0) as (Hnew & _ & Hnew' & _).
  destruct (assign_value 0 7%Z m1) as (_ & Hold & _ & Hold').
  repeat apply conj.
  - exact (Hnew empty_Optional 7%Z 2 eq_refl eq_refl eq_refl).
  - exact (Hold 5%Z 7%Z 3 eq_refl eq_refl).
  - exact (Hnew' empty_Optional 7%Z 0%Z 2 eq_refl eq_refl eq_refl).
  - exact (Hold' 5%Z 7%Z 0%Z 3 eq_refl eq_refl).
Defined.

Lemma construction_from_value_and_copy_witness :
  let m : @mem Z Z nat := one_container 1 (occupied_with 5%Z) 3 in
  let m' : @mem Z Z nat :=
    mkMem (<[0 := occupied_with 5%Z]> {[1 := occupied_with 5%Z]}) 2
          [Constructed CopyCtor 0] in
  Optional_from_const_ref 0 8%Z m =
    Normal () (mkMem (<[0 := occupied_with 8%Z]> {[1 := occupied_with 5%Z]}) 2
                     [Constructed CopyCtor 0]) ∧
  Optional_copy 0 1 m = Normal () m' ∧
  (r ← Value_const 0; read r) m' = Normal (Some 5%Z) m' ∧
  Optional_copy 0 1 (one_container 1 empty_Optional 3) =
    Normal () (two_containers 0 empty_Optional 1 empty_Optional 3).
Proof.
  intros m m'.
  destruct (construction_from_value_and_copy 0 m eq_refl) as (Hvalue & _ & _ & Hcopy).
  destruct (construction_from_value_and_copy 0 (one_container 1 empty_Optional 3) eq_refl)
    as (_ & _ & Hempty & _).
  repeat apply conj.
  - exact (proj1 (Hvalue 8%Z 8%Z 2 eq_refl)).
  - exact (proj1 (Hcopy 1 5%Z 5%Z 2 eq_refl eq_refl)).
  - destruct (Hvalue 5%Z 5%Z 2 eq_refl) as (_ & _ & Hread). exact Hread.
  - exact (proj1 (Hempty 1 empty_Optional eq_refl eq_refl)).
Defined.

Lemma assign_from_empty_witness :
  let m : @mem Z Z nat := two_containers 0 (occupied_with 5%Z) 1 empty_Optional 3 in
  let m' : @mem Z Z nat :=
    mkMem (<[0 := empty_Optional]> {[1 := empty_Optional]}) 3 [Destroyed 0] in
  assign_copy 0 1 m = Normal 0 m' ∧
  assign_move 0 1 m = Normal 0 m' ∧
  assign_copy 0 1 m' = Normal 0 m'.
Proof.
  intros m m'.
  destruct (assign_from_empty 0 1 m empty_Optional eq_refl eq_refl) as [Hocc _].
  destruct (assign_from_empty 0 1 m' empty_Optional eq_refl eq_refl) as [_ Hemp].
  repeat apply conj.
  - exact (proj1 (Hocc 5%Z eq_refl)).
  - exact (proj1 (proj2 (Hocc 5%Z eq_refl))).
  - exact (proj1 (Hemp empty_Optional eq_refl eq_refl)).
Defined.

Lemma Reset_and_destruction_witness :
  let m : @mem Z Z nat := one_container 0 (occupied_with 5%Z) 3 in
  let m' : @mem Z Z nat := mkMem {[0 := empty_Optional]} 3 [Destroyed 0] in
  Reset 0 m = Normal () m' ∧
  Reset 0 m' = Normal () m' ∧
  Optional_dtor 0 m = Normal () m'.
Proof.
  intros m m'.
  destruct (Reset_and_destruction 0 m) as (_ & Hocc & Hdtor).
  destruct (Reset_and_destruction 0 m') as (Hemp & _ & _).
  repeat apply conj.
  - exact (proj1 (Hocc 5%Z eq_refl)).
  - exact (proj1 (Hemp empty_Optional eq_refl eq_refl)).
  - exact (eq_trans Hdtor (proj1 (Hocc 5%Z eq_refl))).
Defined.

Lemma Emplace_replaces_witness :
  let m0 : @mem Z Z nat := one_container 0 empty_Optional 3 in
  let m1 : @mem Z Z nat := one_container 0 (occupied_with 5%Z) 3 in
  Emplace 0 (3, 4)%Z m0 =
    Normal () (mkMem {[0 := occupied_with 7%Z]} 2 [Constructed ArgsCtor 0]) ∧
  Emplace 0 (3, 4)%Z m1 =
    Normal () (mkMem {[0 := occupied_with 7%Z]} 2
                     [Destroyed 0; Constructed ArgsCtor 0]).
Proof.
  intros m0 m1.
  destruct (Emplace_replaces 0 (3, 4)%Z m0) as [Hemp _].
  destruct (Emplace_replaces 0 (3, 4)%Z m1) as [_ Hocc].
  split.
  - exact (proj1 (proj2 (Hemp empty_Optional 7%Z 2 eq_refl eq_refl eq_refl))).
  - exact (proj1 (proj2 (Hocc 5%Z 7%Z 2 eq_refl eq_refl))).
Defined.

Lemma move_leaves_source_occupied_witness :
  let m : @mem Z Z nat := one_container 1 (occupied_with 5%Z) 3 in
  let m' : @mem Z Z nat :=
    mkMem (<[0 := occupied_with 5%Z]> {[1 := occupied_with 0%Z]}) 2
          [Constructed MoveCtor 0] in
  Optional_move 0 1 m = Normal () m' ∧
  HasValue 1 m' = Normal true m'.
Proof.
  intros m m'.
  destruct (move_leaves_source_occupied 0 1 m 5%Z eq_refl)
    as (Hany & Hctor & _ & _).
  assert (Optional_move 0 1 m = Normal () m') as Hmove
    by exact (Hctor 5%Z 0%Z 2 eq_refl eq_refl).
  split; [exact Hmove|].
  apply (Hany m'). left. exact (f_equal final Hmove).
Defined.

Lemma self_copy_assign_witness :
  let m0 : @mem Z Z nat := one_container 0 empty_Optional 3 in
  let m1 : @mem Z Z nat := one_container 0 (occupied_with 5%Z) 3 in
  assign_copy 0 0 m0 = Normal 0 m0 ∧
  assign_copy 0 0 m1 =
    Normal 0 (mkMem {[0 := occupied_with 5%Z]} 3
                    [Assigned CopyAssign 0 (Element 0) None]).
Proof.
  intros m0 m1.
  destruct (self_copy_assign 0 m0) as [Hemp _].
  destruct (self_copy_assign 0 m1) as [_ Hocc].
  split.
  - exact (proj1 (Hemp empty_Optional eq_refl eq_refl)).
  - exact (proj1 (Hocc 5%Z None 5%Z 3 eq_refl eq_refl)).
Defined.

Lemma unchecked_access_witness :
  let m0 : @mem Z Z nat := one_container 0 empty_Optional 0 in
  arrow 0 m0 = Normal nullptr m0 ∧
  deref_lvalue 0 m0 = Undefined.
Proof.
  intros m0.
  destruct (unchecked_access 0 m0 empty_Optional eq_refl eq_refl)
    as (Harrow & _ & _ & Hderef).
  exact (conj Harrow (proj1 (Hderef eq_refl))).
Defined.

Lemma assignment_failure_keeps_element_witness :
  let m : @mem Z Z nat :=
    two_containers 0 (occupied_with 5%Z) 1 (occupied_with (-1)%Z) 3 in
  assign_const_ref 0 (-2)%Z m =
    Throws (ElemExn (-2)%Z)
      (mkMem (<[0 := occupied_with 5%Z]> {[1 := occupied_with (-1)%Z]}) 3
             [Assigned CopyAssign 0 External (Some (-2)%Z)]) ∧
  assign_move 0 1 m =
    Throws (ElemExn (-1)%Z)
      (mkMem (<[0 := occupied_with 5%Z]> {[1 := occupied_with (-1)%Z]}) 3
             [Assigned MoveAssign 0 (Element 1) (Some (-1)%Z)]).
Proof.
  intros m.
  assert (0 ≠ 1) as Hne by discriminate.
  destruct (assignment_failure_keeps_element 0 m 5%Z eq_refl)
    as (Hvalue & _ & _ & Hmove).
  split.
  - exact (proj1 (Hvalue (-2)%Z (-2)%Z 5%Z 3 eq_refl)).
  - exact (proj1 (Hmove 1 (-1)%Z (-1)%Z 5%Z (-1)%Z 3 Hne eq_refl eq_refl)).
Defined.


Lemma constructions_match_destructions_witness :
  let ops : list (@op Z (Z * Z)) :=
    [OpFromConstRef 0 5%Z; OpEmplace 0 (1, 2)%Z; OpDtor 0; OpDefault 0;
     OpAssignConstRef 0 9%Z] in
  let m : @mem Z Z nat :=
    mkMem {[0 := occupied_with 9%Z]} 2
          [Constructed CopyCtor 0; Destroyed 0; Constructed ArgsCtor 0;
           Destroyed 0; Constructed CopyCtor 0] in
  run ops (initial 5) = Some m ∧
  count (is_construction 0) (log m) =
    count (is_destruction 0) (log m) + live_elements m 0.
Proof.
  intros ops m.
  assert (run ops (initial 5) = Some m) as Hrun by (vm_compute; reflexivity).
  split; [exact Hrun|].
  exact (proj1 (constructions_match_destructions ops 5 m 0 Hrun)).
Defined.


Lemma self_move_assign_witness :
  let m0 : @mem Z Z nat := one_container 0 empty_Optional 3 in
  let m1 : @mem Z Z nat := one_container 0 (occupied_with 5%Z) 3 in
  assign_move 0 0 m0 = Normal 0 m0 ∧
  assign_move 0 0 m1 =
    Normal 0 (mkMem {[0 := occupied_with 5%Z]} 3
                    [Assigned MoveAssign 0 (Element 0) None]).
Proof.
  intros m0 m1.
  destruct (self_move_assign 0 m0) as [Hemp _].
  destruct (self_move_assign 0 m1) as [_ Hocc].
  split.
  - exact (Hemp empty_Optional eq_refl eq_refl).
  - exact (proj1 (Hocc 5%Z None 5%Z 3 eq_refl eq_refl)).
Defined.

Lemma stored_value_is_read_back_witness :
  let m : @mem Z Z nat := one_container 0 (occupied_with 5%Z) 3 in
  returned ((Emplace 0 (3, 4)%Z;; r ← Value_const 0; read r) m)
  = Some (Some 7%Z) ∧
  returned ((assign_const_ref 0 8%Z;; r ← Value_const 0; read r) m)
  = Some (Some 8%Z) ∧
  thrown ((Reset 0;; Value_const 0) m) = Some BadOptionalAccess.
Proof.
  intros m.
  destruct (stored_value_is_read_back 0 m (occupied_with 5%Z) eq_refl eq_refl)
    as (Hemplace & _ & Hassign & Hreset).
  repeat apply conj.
  - exact (Hemplace (3, 4)%Z 7%Z 2 eq_refl).
  - exact (Hassign 8%Z 5%Z 8%Z 3 eq_refl eq_refl).
  - exact Hreset.
Defined.

Lemma Emplace_failure_loses_old_element_witness :
  let m : @mem Z Z nat := one_container 0 (occupied_with 5%Z) 0 in
  Emplace 0 (3, 4)%Z m =
    Throws (ElemExn 7%Z)
      (mkMem {[0 := empty_Optional]} 0
             [Destroyed 0; ConstructThrew ArgsCtor 0 7%Z]).
Proof.
  intros m.
  exact (proj1 (Emplace_failure_loses_old_element 0 (3, 4)%Z m 5%Z 7%Z 0
                  eq_refl eq_refl)).
Defined.

(** * The definitions at work, on the instrumented integers *)

(** The scenario of the specification: a default container has no value;
    after [c = 5] it holds 5; after [Reset] it is empty; after [Emplace] it
    holds the emplaced value; assigning an empty container empties it. *)
Example end_to_end :
  let c := 0%nat in
  let d := 1%nat in
  let after ops := run ops (initial 10%nat) in
  let has_value ops := m ← after ops; returned (HasValue c m) in
  let value ops := m ← after ops; returned ((r ← Value_const c; read r) m) in
  let s1 := [OpDefault c] in
  let s2 := s1 ++ [OpAssignConstRef c 5%Z] in
  let s3 := s2 ++ [OpReset c] in
  let s4 := s3 ++ [OpEmplace c (3, 4)%Z] in
  let s5 := s4 ++ [OpDefault d; OpAssignCopy c d] in
  has_value s1 = Some false ∧
  has_value s2 = Some true ∧ value s2 = Some (Some 5%Z) ∧
  has_value s3 = Some false ∧
  has_value s4 = Some true ∧ value s4 = Some (Some 7%Z) ∧
  has_value s5 = Some false ∧
  (thrown <$> (Value_const c <$> after s5)) = Some (Some BadOptionalAccess).
Proof. repeat apply conj; vm_compute; reflexivity. Qed.
